(** * culture.c: the translation framework of atheme-services

    A shallow embedding of [src/src/culture.c]: the two translation
    dictionaries (internal and language), the lookup [translation_get],
    their create/destroy operations, and the language registry
    ([language_init], [language_add], [language_find], [language_names],
    [language_get_name], [language_is_valid]).

    C strings are [string]s (without NUL bytes); the mowgli patricia
    dictionaries, created with [noopcanon], are exact-match maps
    [gmap string translation_t]; the global [language_list] is an ordered
    list of records, and a [language_t *] is the position of its record in
    that list (records are never moved or freed). *)

From Stdlib Require Import String Ascii NArith.
From stdpp Require Import base gmap strings list.

Open Scope string_scope.

(** ** Data *)

Module Translation.
(** [struct translation_] *)
Record translation_t := mk { name : string; replacement : string }.
End Translation.

Module Language.
(** [struct language_]; the list node is the position in the list. *)
Record language_t := mk { name : string; flags : N }.
End Language.

Import Translation Language.

(** [LANG_VALID = 1]: have catalogs for this language. *)
Definition LANG_VALID : N := 1.

(** The global state of culture.c: [itranslation_tree],
    [translation_tree] and [language_list]. *)
Record state := mkState {
  itranslation_tree : gmap string translation_t;
  translation_tree : gmap string translation_t;
  language_list : list language_t
}.

(** Static storage starts out empty. *)
Definition initial_state : state := mkState ∅ ∅ [].

(** ** Library helpers *)

(** [mowgli_patricia_add]: libmowgli's patricia dictionary refuses a key
    that is already present ("Key is already in dict, ignoring
    duplicate") and leaves the dictionary unchanged; otherwise the
    element is inserted under its key. *)
Definition mowgli_patricia_add {A} (k : string) (x : A) (d : gmap string A)
  : gmap string A :=
  match d !! k with
  | Some _ => d
  | None => <[k := x]> d
  end.

(** [mowgli_patricia_delete]: removes the key (if present) and returns the
    removed element. *)
Definition mowgli_patricia_delete {A} (k : string) (d : gmap string A)
  : option A * gmap string A :=
  (d !! k, delete k d).

(** [strlcpy(buf, src, size)]: copies at most [size - 1] bytes. *)
Definition strlcpy (src : string) (size : nat) : string :=
  substring 0 (size - 1) src.

(** [strlcat(dst, src, size)] with [strlen(dst) < size]: appends at most
    [size - strlen(dst) - 1] bytes of [src]. *)
Definition strlcat (dst src : string) (size : nat) : string :=
  dst ++ substring 0 (size - String.length dst - 1) src.

(** Modelled from the spec: [BUFSIZE], the size of the buffer that
    [translation_create] uses, comes from atheme's headers, which are not
    under src/; the spec only says it is a fixed, implementation-defined
    bound. Atheme's common header fixes it at 1024. *)
Definition BUFSIZE : nat := 1024.

(** The control byte 0x02 (bold toggle). *)
Definition bold : ascii := ascii_of_nat 2.

(** Modelled from the spec: [replace(buf, BUFSIZE, "\\2", "\2")], from
    atheme's function.c (not under src/). "Every occurrence of the
    two-character escape sequence backslash+'2' is rewritten to a single
    control byte (value 0x02)", scanning left to right. The rewrite only
    shrinks the string, so the buffer size never stops it. *)
Fixpoint replace_bs2 (s : string) : string :=
  match s with
  | EmptyString => EmptyString
  | String c r =>
      if Ascii.eqb c "\"%char then
        match r with
        | String d r' =>
            if Ascii.eqb d "2"%char then String bold (replace_bs2 r')
            else String c (replace_bs2 r)
        | EmptyString => String c EmptyString
        end
      else String c (replace_bs2 r)
  end.

(** ** Translations *)

(** [translation_get(str)] *)
Definition translation_get (st : state) (str : string) : string :=
  let str :=
    match itranslation_tree st !! str with
    | Some t => replacement t
    | None => str
    end in
  match translation_tree st !! str with
  | Some t => replacement t
  | None => str
  end.

(** [itranslation_create(str, trans)]: [sstrdup] copies both strings
    whole. *)
Definition itranslation_create (str trans : string) (st : state) : state :=
  let t := Translation.mk str trans in
  mkState (mowgli_patricia_add (Translation.name t) t (itranslation_tree st))
          (translation_tree st) (language_list st).

(** [itranslation_destroy(str)] *)
Definition itranslation_destroy (str : string) (st : state) : state :=
  let '(_, d) := mowgli_patricia_delete str (itranslation_tree st) in
  mkState d (translation_tree st) (language_list st).

(** [translation_create(str, trans)]: both strings go through
    [strlcpy(buf, _, BUFSIZE)] and [replace(buf, BUFSIZE, "\\2", "\2")]. *)
Definition translation_create (str trans : string) (st : state) : state :=
  let buf := replace_bs2 (strlcpy str BUFSIZE) in
  let nm := buf in
  let buf := replace_bs2 (strlcpy trans BUFSIZE) in
  let t := Translation.mk nm buf in
  mkState (itranslation_tree st)
          (mowgli_patricia_add (Translation.name t) t (translation_tree st))
          (language_list st).

(** [translation_destroy(str)] *)
Definition translation_destroy (str : string) (st : state) : state :=
  let '(_, d) := mowgli_patricia_delete str (translation_tree st) in
  mkState (itranslation_tree st) d (language_list st).

(** ** Languages *)

(** [language_find(name)]: first record (from the head) whose name is
    [strcmp]-equal; the result is its position. *)
Fixpoint language_find_from (name : string) (l : list language_t) (i : nat)
  : option nat :=
  match l with
  | [] => None
  | lang :: l' =>
      if String.eqb (Language.name lang) name then Some i
      else language_find_from name l' (S i)
  end.

Definition language_find (name : string) (l : list language_t) : option nat :=
  language_find_from name l 0.

(** [language_add(name)]: the existing record if found; otherwise a fresh
    [smalloc]'d (zeroed) record appended by [node_add]. *)
Definition language_add (name : string) (l : list language_t)
  : nat * list language_t :=
  match language_find name l with
  | Some i => (i, l)
  | None => (List.length l, app l [Language.mk name 0])
  end.

(** [lang->flags |= LANG_VALID] *)
Definition set_valid (i : nat) (l : list language_t) : list language_t :=
  alter (fun lang => Language.mk (Language.name lang)
                       (N.lor (flags lang) LANG_VALID)) i l.

(** [language_get_name(lang)] *)
Definition language_get_name (lang : language_t) : string := Language.name lang.

(** [language_is_valid(lang)] *)
Definition language_is_valid (lang : language_t) : bool :=
  negb (N.eqb (N.land (flags lang) LANG_VALID) 0).

(** The filter of the directory scan. *)
Definition scan_accepts (d_name : string) : bool :=
  match d_name with
  | String "."%char _ => false
  | _ => negb (String.eqb d_name "all_languages")
         && negb (String.eqb d_name "locale.alias")
  end.

(** The body of the [readdir] loop. *)
Fixpoint scan_entries (ents : list string) (l : list language_t)
  : list language_t :=
  match ents with
  | [] => l
  | d_name :: ents' =>
      if scan_accepts d_name then
        let '(i, l) := language_add d_name l in
        scan_entries ents' (set_valid i l)
      else scan_entries ents' l
  end.

(** [language_init()]; [dir] is what [opendir(LOCALEDIR)] sees: [None]
    when it fails, otherwise the entry names [readdir] returns. *)
Definition language_init (dir : option (list string)) (l : list language_t)
  : list language_t :=
  let '(i, l) := language_add "en" l in
  let l := set_valid i l in
  match dir with
  | None => l
  | Some ents => scan_entries ents l
  end.

(** [language_names()]: the static 512-byte buffer filled by
    [strlcat]. *)
Fixpoint language_names_loop (l : list language_t) (names : string) : string :=
  match l with
  | [] => names
  | lang :: l' =>
      let names :=
        if language_is_valid lang then
          let names :=
            if negb (String.eqb names "") then strlcat names " " 512
            else names in
          strlcat names (Language.name lang) 512
        else names in
      language_names_loop l' names
  end.

Definition language_names (l : list language_t) : string :=
  language_names_loop l "".

(** ** Operations on the global state *)

(** The operations of culture.c that change the state; the others
    ([translation_get], [language_find], [language_names],
    [language_get_name], [language_is_valid]) only read it. *)
Inductive op :=
| ITranslationCreate (str trans : string)
| ITranslationDestroy (str : string)
| TranslationCreate (str trans : string)
| TranslationDestroy (str : string)
| LanguageInit (dir : option (list string))
| LanguageAdd (name : string).

Definition with_languages (st : state) (l : list language_t) : state :=
  mkState (itranslation_tree st) (translation_tree st) l.

Definition exec (o : op) (st : state) : state :=
  match o with
  | ITranslationCreate s t => itranslation_create s t st
  | ITranslationDestroy s => itranslation_destroy s st
  | TranslationCreate s t => translation_create s t st
  | TranslationDestroy s => translation_destroy s st
  | LanguageInit dir => with_languages st (language_init dir (language_list st))
  | LanguageAdd n => with_languages st (snd (language_add n (language_list st)))
  end.

(** States reachable from static initialisation. *)
Inductive reachable : state -> Prop :=
| reachable_initial : reachable initial_state
| reachable_exec o st : reachable st -> reachable (exec o st).

Definition is_init (o : op) : bool :=
  match o with LanguageInit _ => true | _ => false end.

(** ** Tests *)

Example get_chain :
  translation_get
    (translation_create "b" "c" (itranslation_create "a" "b" initial_state))
    "a" = "c".
Proof. reflexivity. Qed.

Example create_bs2 :
  translation_tree (translation_create "a\2b" "c\2d" initial_state)
    !! ("a" ++ String bold "b")
  = Some (Translation.mk ("a" ++ String bold "b") ("c" ++ String bold "d")).
Proof. vm_compute. reflexivity. Qed.

Example init_names :
  language_names (language_init (Some ["."; ".."; "fr"; "all_languages"; "de"]) [])
  = "en fr de".
Proof. reflexivity. Qed.

(** ** Translation lookup *)

(** C7: a string that is a key of neither table translates to itself. *)
Theorem translation_get_absent (st : state) (s : string) :
  itranslation_tree st !! s = None ->
  translation_tree st !! s = None ->
  translation_get st s = s.
Proof. intros Hi Hl. unfold translation_get. now rewrite Hi, Hl. Qed.

Lemma translation_get_absent_witness :
  itranslation_tree initial_state !! "hello" = None /\
  translation_tree initial_state !! "hello" = None /\
  translation_get initial_state "hello" = "hello".
Proof.
  split; [reflexivity | split; [reflexivity |]].
  apply translation_get_absent; reflexivity.
Defined.

(** The two-table fallback read as the spec words it: when the language
    table misses the internal replacement, the original input comes back. *)
Definition discards_internal_claim : Prop :=
  forall (st : state) (s : string) (t : translation_t),
    itranslation_tree st !! s = Some t ->
    translation_tree st !! replacement t = None ->
    translation_get st s = s.

(** C1 (counterexample): with the internal entry "a" -> "b" and an empty
    language table, [translation_get "a"] is "b", not "a". *)
Lemma translation_get_keeps_internal_cex : ~ discards_internal_claim.
Proof.
  unfold discards_internal_claim. intros H.
  specialize (H (itranslation_create "a" "b" initial_state) "a"
                (Translation.mk "a" "b")).
  assert (E : translation_get (itranslation_create "a" "b" initial_state) "a"
              = "b") by reflexivity.
  rewrite H in E by reflexivity. discriminate E.
Qed.

(** C1 (amended): when the internal table maps [s] to [t] and the language
    table has no entry for [t]'s replacement, [translation_get s] returns
    the internal replacement. *)
Theorem translation_get_internal_fallback (st : state) (s : string)
    (t : translation_t) :
  itranslation_tree st !! s = Some t ->
  translation_tree st !! replacement t = None ->
  translation_get st s = replacement t.
Proof. intros Hi Hl. unfold translation_get. now rewrite Hi, Hl. Qed.

Lemma translation_get_internal_fallback_witness :
  itranslation_tree (itranslation_create "a" "b" initial_state) !! "a"
    = Some (Translation.mk "a" "b") /\
  translation_tree (itranslation_create "a" "b" initial_state) !! "b" = None /\
  translation_get (itranslation_create "a" "b" initial_state) "a" = "b".
Proof.
  split; [reflexivity | split; [reflexivity |]].
  apply (translation_get_internal_fallback _ _ (Translation.mk "a" "b"));
    reflexivity.
Defined.

(** ** Create and destroy *)

(** C8: after [create k v] then [destroy k] on either table, [k] is not
    found there; [destroy k] of an absent key leaves the state as it is. *)
Theorem create_destroy_not_found (st : state) (k v : string) :
  itranslation_tree (itranslation_destroy k (itranslation_create k v st)) !! k
    = None /\
  translation_tree (translation_destroy k (translation_create k v st)) !! k
    = None /\
  (itranslation_tree st !! k = None -> itranslation_destroy k st = st) /\
  (translation_tree st !! k = None -> translation_destroy k st = st).
Proof.
  unfold itranslation_destroy, translation_destroy, mowgli_patricia_delete.
  cbn. split; [apply lookup_delete_eq |]. split; [apply lookup_delete_eq |].
  destruct st as [it lt ll]; cbn.
  split; intros H; now rewrite (delete_id _ _ H).
Qed.

Lemma create_destroy_not_found_witness :
  itranslation_tree initial_state !! "x" = None /\
  itranslation_destroy "x" initial_state = initial_state.
Proof.
  split; [reflexivity |].
  destruct (create_destroy_not_found initial_state "x" "y") as [_ [_ [H _]]].
  apply H. reflexivity.
Defined.

(** ** Independence of the three structures *)

(** C10: the internal operations touch only the internal table, the
    language-table operations only the language table, and the language
    operations only the registry. *)
Theorem exec_frame (o : op) (st : state) :
  match o with
  | ITranslationCreate _ _ | ITranslationDestroy _ =>
      translation_tree (exec o st) = translation_tree st /\
      language_list (exec o st) = language_list st
  | TranslationCreate _ _ | TranslationDestroy _ =>
      itranslation_tree (exec o st) = itranslation_tree st /\
      language_list (exec o st) = language_list st
  | LanguageInit _ | LanguageAdd _ =>
      itranslation_tree (exec o st) = itranslation_tree st /\
      translation_tree (exec o st) = translation_tree st
  end.
Proof. destruct o; split; reflexivity. Qed.

(** ** The backslash-2 rewrite and the buffer *)

(** [s] contains the two-character sequence backslash, '2'. *)
Definition contains_bs2 (s : string) : Prop :=
  exists pre post, s = pre ++ String "\"%char (String "2"%char post).

(** The same test as a boolean, scanning left to right. *)
Fixpoint has_bs2 (s : string) : bool :=
  match s with
  | EmptyString => false
  | String c r =>
      (Ascii.eqb c "\"%char &&
         match r with String d _ => Ascii.eqb d "2"%char | EmptyString => false end)
      || has_bs2 r
  end.

Lemma contains_has_bs2 (s : string) : contains_bs2 s -> has_bs2 s = true.
Proof.
  intros [pre [post ->]]. induction pre as [|c pre IH].
  - reflexivity.
  - simpl. rewrite IH. apply orb_true_r.
Qed.

(** Strong induction on the length of a string. *)
Lemma string_len_ind (P : string -> Prop) :
  (forall s, (forall r, String.length r < String.length s -> P r) -> P s) ->
  forall s, P s.
Proof.
  intros H s. remember (String.length s) as n eqn:E.
  revert s E. induction (lt_wf n) as [n _ IH]. intros s ->.
  apply H. intros r Hr. now apply (IH (String.length r)).
Qed.

Lemma replace_bs2_length_le (s : string) :
  String.length (replace_bs2 s) <= String.length s.
Proof.
  induction s as [s IH] using string_len_ind.
  destruct s as [|c r]; cbn; [lia |].
  destruct (Ascii.eqb c "\"%char).
  - destruct r as [|d r']; cbn; [lia |].
    destruct (Ascii.eqb d "2"%char); cbn.
    + specialize (IH r' ltac:(cbn; lia)). lia.
    + specialize (IH (String d r') ltac:(cbn; lia)). cbn in IH |- *. lia.
  - specialize (IH r ltac:(cbn; lia)). cbn. lia.
Qed.

Lemma replace_bs2_length_lt (s : string) :
  contains_bs2 s -> String.length (replace_bs2 s) < String.length s.
Proof.
  intros [pre [post ->]]. induction pre as [|c pre IH]; simpl.
  - pose proof (replace_bs2_length_le post). lia.
  - destruct (Ascii.eqb c "\"%char) eqn:Ec.
    + destruct (pre ++ String "\"%char (String "2"%char post)) as [|d r'] eqn:E.
      * destruct pre; discriminate E.
      * destruct (Ascii.eqb d "2"%char); cbn.
        -- pose proof (replace_bs2_length_le r'). lia.
        -- cbn in IH. lia.
    + cbn. lia.
Qed.

(** The first byte of the rewrite is the first byte of the input or the
    control byte. *)
Lemma replace_bs2_head (d : ascii) (r : string) :
  exists x r', replace_bs2 (String d r) = String x r' /\ (x = d \/ x = bold).
Proof.
  cbn. destruct (Ascii.eqb d "\"%char); [destruct r as [|e r']|].
  - eauto.
  - destruct (Ascii.eqb e "2"%char); eauto.
  - eauto.
Qed.

(** No backslash-2 sequence survives the rewrite. *)
Lemma replace_bs2_complete (s : string) : has_bs2 (replace_bs2 s) = false.
Proof.
  induction s as [s IH] using string_len_ind.
  destruct s as [|c r]; [reflexivity |].
  cbn [replace_bs2]. destruct (Ascii.eqb c "\"%char) eqn:Ec.
  - destruct r as [|d r'].
    + cbn. rewrite Ec. reflexivity.
    + destruct (Ascii.eqb d "2"%char) eqn:Ed.
      * cbn [has_bs2]. rewrite (IH r') by (cbn; lia). reflexivity.
      * cbn [has_bs2]. rewrite (IH (String d r')) by (cbn; lia).
        destruct (replace_bs2_head d r') as [x [r'' [E Hx]]].
        rewrite E, Ec. destruct Hx as [-> | ->]; [rewrite Ed |]; reflexivity.
  - cbn [has_bs2]. rewrite Ec, (IH r) by (cbn; lia). reflexivity.
Qed.

Lemma substring_0_length (m : nat) (s : string) :
  String.length (substring 0 m s) = Nat.min m (String.length s).
Proof.
  revert m. induction s as [|c s IH]; intros [|m]; cbn; try reflexivity.
  now rewrite IH.
Qed.

Lemma substring_0_full (m : nat) (s : string) :
  String.length s <= m -> substring 0 m s = s.
Proof.
  revert m. induction s as [|c s IH]; intros [|m] H; cbn in *;
    try reflexivity; try lia.
  rewrite IH by lia. reflexivity.
Qed.

Lemma strlcpy_length (s : string) (size : nat) :
  String.length (strlcpy s size) = Nat.min (size - 1) (String.length s).
Proof. apply substring_0_length. Qed.

(** The key [translation_create] stores for [str]. *)
Definition translation_key (str : string) : string :=
  replace_bs2 (strlcpy str BUFSIZE).

Lemma translation_key_length (str : string) :
  String.length (translation_key str) <= BUFSIZE - 1.
Proof.
  unfold translation_key.
  pose proof (replace_bs2_length_le (strlcpy str BUFSIZE)).
  rewrite strlcpy_length in H. lia.
Qed.

Lemma translation_key_changes (str : string) :
  contains_bs2 str -> translation_key str <> str.
Proof.
  intros Hc E. unfold translation_key in E.
  destruct (Nat.le_gt_cases (String.length str) (BUFSIZE - 1)) as [Hle | Hgt].
  - unfold strlcpy in E. rewrite (substring_0_full _ _ Hle) in E.
    pose proof (replace_bs2_length_lt _ Hc). rewrite E in H. lia.
  - pose proof (replace_bs2_length_le (strlcpy str BUFSIZE)).
    rewrite strlcpy_length, E in H. lia.
Qed.

Lemma translation_create_lookup (st : state) (k v k0 : string) :
  translation_tree (translation_create k v st) !! k0 =
  if decide (k0 = translation_key k) then
    match translation_tree st !! k0 with
    | Some t => Some t
    | None => Some (Translation.mk (translation_key k) (translation_key v))
    end
  else translation_tree st !! k0.
Proof.
  unfold translation_create, mowgli_patricia_add; cbn.
  fold (translation_key k) (translation_key v).
  case_decide as Hk.
  - subst k0. destruct (translation_tree st !! translation_key k) eqn:E.
    + exact E.
    + apply lookup_insert_eq.
  - destruct (translation_tree st !! translation_key k); [reflexivity |].
    now apply lookup_insert_ne.
Qed.

(** C2: [translation_create] stores under the rewritten key the rewritten
    value (when that key is new), touches no other key, and leaves no
    backslash-2 sequence in either string; lookups use their argument as
    it is: on [create("a\2b", "c\2d")] the rewritten key translates to
    "c" 0x02 "d" while "a\2b" itself is not a key. *)
Theorem translation_create_rewrites (st : state) (k v : string) :
  (translation_tree st !! translation_key k = None ->
   translation_tree (translation_create k v st) !! translation_key k
     = Some (Translation.mk (translation_key k) (translation_key v))) /\
  (forall k0, k0 <> translation_key k ->
   translation_tree (translation_create k v st) !! k0 = translation_tree st !! k0) /\
  has_bs2 (translation_key k) = false /\ has_bs2 (translation_key v) = false /\
  translation_key "a\2b" = "a" ++ String bold "b" /\
  translation_key "c\2d" = "c" ++ String bold "d" /\
  translation_get (translation_create "a\2b" "c\2d" initial_state)
    ("a" ++ String bold "b") = "c" ++ String bold "d" /\
  translation_get (translation_create "a\2b" "c\2d" initial_state) "a\2b"
    = "a\2b".
Proof.
  split; [| split; [| split; [| split; [| split]]]].
  - intros H. rewrite translation_create_lookup, decide_True, H by reflexivity.
    reflexivity.
  - intros k0 Hk0. rewrite translation_create_lookup, decide_False by exact Hk0.
    reflexivity.
  - apply replace_bs2_complete.
  - apply replace_bs2_complete.
  - reflexivity.
  - split; [reflexivity | split; vm_compute; reflexivity].
Qed.

Lemma translation_create_rewrites_witness :
  translation_tree initial_state !! translation_key "a\2b" = None /\
  translation_tree (translation_create "a\2b" "c\2d" initial_state)
    !! translation_key "a\2b"
  = Some (Translation.mk (translation_key "a\2b") (translation_key "c\2d")).
Proof.
  split; [reflexivity |].
  destruct (translation_create_rewrites initial_state "a\2b" "c\2d") as [H _].
  apply H. reflexivity.
Defined.

(** A string of [n] copies of [c]. *)
Fixpoint repeat_char (n : nat) (c : ascii) : string :=
  match n with
  | 0 => EmptyString
  | S n' => String c (repeat_char n' c)
  end.

(** "Both create variants truncate to the buffer size": every entry that
    either create stores into an empty table has a name shorter than the
    buffer. *)
Definition both_variants_truncate_claim : Prop :=
  forall (st : state) (k v k0 : string) (t : translation_t),
    itranslation_tree st = ∅ ->
    itranslation_tree (itranslation_create k v st) !! k0 = Some t ->
    String.length (Translation.name t) < BUFSIZE.

(** C3 (counterexample): [itranslation_create] stores a key of 1025 bytes
    whole. *)
Lemma itranslation_create_no_truncation_cex : ~ both_variants_truncate_claim.
Proof.
  unfold both_variants_truncate_claim. intros H.
  pose (big := repeat_char 1025 "a"%char).
  specialize (H initial_state big "x" big (Translation.mk big "x") eq_refl).
  assert (L : itranslation_tree (itranslation_create big "x" initial_state) !! big
              = Some (Translation.mk big "x")).
  { unfold itranslation_create, mowgli_patricia_add. cbn.
    apply lookup_insert_eq. }
  specialize (H L). cbn [Translation.name] in H.
  assert (Lb : String.length big = 1025) by reflexivity.
  unfold BUFSIZE in H. lia.
Qed.

(** C3 (amended): [itranslation_create] stores key and value whole,
    whatever their length; [translation_create] silently cuts key and value
    to [BUFSIZE - 1] bytes (then rewrites them) before storing. *)
Theorem create_truncation (st : state) (k v : string) :
  (itranslation_tree st !! k = None ->
   itranslation_tree (itranslation_create k v st) !! k = Some (Translation.mk k v)) /\
  (translation_tree st !! translation_key k = None ->
   translation_tree (translation_create k v st) !! translation_key k
     = Some (Translation.mk (translation_key k) (translation_key v))) /\
  translation_key k = replace_bs2 (substring 0 (BUFSIZE - 1) k) /\
  String.length (translation_key k) <= BUFSIZE - 1 /\
  String.length (translation_key v) <= BUFSIZE - 1.
Proof.
  split; [| split; [| split; [reflexivity | split]]].
  - intros H. unfold itranslation_create, mowgli_patricia_add. cbn.
    rewrite H. apply lookup_insert_eq.
  - intros H. rewrite translation_create_lookup, decide_True, H by reflexivity.
    reflexivity.
  - apply translation_key_length.
  - apply translation_key_length.
Qed.

Lemma create_truncation_witness :
  itranslation_tree initial_state !! repeat_char 1025 "a"%char = None /\
  itranslation_tree (itranslation_create (repeat_char 1025 "a"%char) "x" initial_state)
    !! repeat_char 1025 "a"%char
  = Some (Translation.mk (repeat_char 1025 "a"%char) "x").
Proof.
  split; [reflexivity |].
  destruct (create_truncation initial_state (repeat_char 1025 "a"%char) "x")
    as [H _].
  apply H. reflexivity.
Defined.

(** C9: [translation_destroy] deletes its argument verbatim: for a key
    with a backslash-2 sequence, destroying the key as given leaves the
    entry stored under the rewritten key, and only destroying the
    rewritten key removes it. *)
Theorem translation_destroy_verbatim (st : state) (k v : string) :
  contains_bs2 k ->
  translation_key k <> k /\
  translation_tree (translation_create k v st) !! translation_key k <> None /\
  translation_tree (translation_destroy k (translation_create k v st))
    !! translation_key k
  = translation_tree (translation_create k v st) !! translation_key k /\
  translation_tree
    (translation_destroy (translation_key k) (translation_create k v st))
    !! translation_key k = None.
Proof.
  intros Hc. pose proof (translation_key_changes k Hc) as Hne.
  split; [exact Hne |]. split; [| split].
  - rewrite translation_create_lookup, decide_True by reflexivity.
    destruct (translation_tree st !! translation_key k); discriminate.
  - unfold translation_destroy, mowgli_patricia_delete. cbn.
    apply lookup_delete_ne. congruence.
  - unfold translation_destroy, mowgli_patricia_delete. cbn.
    apply lookup_delete_eq.
Qed.

Lemma translation_destroy_verbatim_witness :
  contains_bs2 "a\2b" /\
  translation_tree (translation_destroy "a\2b"
                      (translation_create "a\2b" "c\2d" initial_state))
    !! translation_key "a\2b"
  = translation_tree (translation_create "a\2b" "c\2d" initial_state)
      !! translation_key "a\2b".
Proof.
  assert (Hc : contains_bs2 "a\2b") by (exists "a", "b"; reflexivity).
  split; [exact Hc |].
  destruct (translation_destroy_verbatim initial_state "a\2b" "c\2d" Hc)
    as [_ [_ [H _]]].
  exact H.
Defined.

(** ** The language registry *)

Lemma language_find_from_None_notin (n : string) (l : list language_t) (i : nat) :
  language_find_from n l i = None -> ~ In n (map Language.name l).
Proof.
  revert i. induction l as [|x l IH]; intros i H; cbn in *; [tauto |].
  destruct (String.eqb (Language.name x) n) eqn:E; [discriminate |].
  apply String.eqb_neq in E. intros [Hx | Hin]; [congruence | exact (IH _ H Hin)].
Qed.

Lemma language_find_from_Some_in (n : string) (l : list language_t) (i j : nat) :
  language_find_from n l i = Some j -> In n (map Language.name l).
Proof.
  revert i. induction l as [|x l IH]; intros i H; cbn in *; [discriminate |].
  destruct (String.eqb (Language.name x) n) eqn:E.
  - apply String.eqb_eq in E. now left.
  - right. exact (IH _ H).
Qed.

Lemma language_find_from_snoc (n : string) (l : list language_t) (x : language_t)
    (i : nat) :
  language_find_from n l i = None ->
  language_find_from n (app l [x]) i
  = if String.eqb (Language.name x) n then Some (i + List.length l) else None.
Proof.
  revert i. induction l as [|y l IH]; intros i H; cbn in *.
  - now rewrite Nat.add_0_r.
  - destruct (String.eqb (Language.name y) n); [discriminate |].
    rewrite (IH _ H). now rewrite Nat.add_succ_r.
Qed.

(** After [language_add n], [language_find n] finds the returned record. *)
Lemma language_add_find (n : string) (l : list language_t) :
  language_find n (snd (language_add n l)) = Some (fst (language_add n l)).
Proof.
  unfold language_add. destruct (language_find n l) eqn:E; [exact E |].
  cbn. unfold language_find. rewrite (language_find_from_snoc _ _ _ _ E).
  cbn. now rewrite String.eqb_refl.
Qed.

Lemma language_add_idem (n : string) (l : list language_t) :
  language_add n (snd (language_add n l)) = language_add n l.
Proof.
  destruct (language_add n l) as [i l1] eqn:E.
  pose proof (language_add_find n l) as F. rewrite E in F. cbn [fst snd] in F.
  cbn [snd]. unfold language_add. now rewrite F.
Qed.

Lemma set_valid_names (i : nat) (l : list language_t) :
  map Language.name (set_valid i l) = map Language.name l.
Proof.
  unfold set_valid. revert i.
  induction l as [|x l IH]; intros [|i]; cbn; try reflexivity.
  f_equal. apply IH.
Qed.

Lemma language_add_nodup (n : string) (l : list language_t) :
  NoDup (map Language.name l) ->
  NoDup (map Language.name (snd (language_add n l))) /\
  count_occ string_dec (map Language.name (snd (language_add n l))) n = 1.
Proof.
  intros Hnd. unfold language_add. destruct (language_find n l) eqn:E; cbn.
  - split; [exact Hnd |].
    apply (proj1 (NoDup_count_occ' string_dec _) (proj1 (NoDup_ListNoDup _) Hnd)).
    exact (language_find_from_Some_in _ _ _ _ E).
  - pose proof (language_find_from_None_notin _ _ _ E) as Hn.
    rewrite map_app. cbn. split.
    + apply NoDup_app. split; [exact Hnd | split].
      * intros y Hy. rewrite list_elem_of_In in Hy.
        intros Hy'. apply list_elem_of_singleton in Hy'. subst y. tauto.
      * apply NoDup_singleton.
    + rewrite count_occ_app, (proj1 (count_occ_not_In string_dec _ _) Hn).
      cbn. destruct (string_dec n n); [reflexivity | congruence].
Qed.

Lemma scan_entries_nodup (ents : list string) (l : list language_t) :
  NoDup (map Language.name l) -> NoDup (map Language.name (scan_entries ents l)).
Proof.
  revert l. induction ents as [|d ents IH]; intros l Hnd; cbn; [exact Hnd |].
  destruct (scan_accepts d); [| now apply IH].
  destruct (language_add d l) as [i l1] eqn:E. apply IH.
  rewrite set_valid_names.
  pose proof (proj1 (language_add_nodup d l Hnd)) as H. now rewrite E in H.
Qed.

Lemma language_init_nodup (dir : option (list string)) (l : list language_t) :
  NoDup (map Language.name l) -> NoDup (map Language.name (language_init dir l)).
Proof.
  intros Hnd. unfold language_init.
  destruct (language_add "en" l) as [i l1] eqn:E.
  assert (H1 : NoDup (map Language.name (set_valid i l1))).
  { rewrite set_valid_names.
    pose proof (proj1 (language_add_nodup "en" l Hnd)) as H. now rewrite E in H. }
  destruct dir; [now apply scan_entries_nodup | exact H1].
Qed.

(** Names in the registry are unique in every reachable state. *)
Lemma reachable_nodup (st : state) :
  reachable st -> NoDup (map Language.name (language_list st)).
Proof.
  induction 1 as [|o st _ IH]; [constructor |].
  destruct o; cbn; try exact IH.
  - now apply language_init_nodup.
  - exact (proj1 (language_add_nodup _ _ IH)).
Qed.

(** [lang->flags |= LANG_VALID] always yields a valid record. *)
Lemma language_is_valid_lor (nm : string) (f : N) :
  language_is_valid (Language.mk nm (N.lor f LANG_VALID)) = true.
Proof. destruct f as [|[p|p|]]; reflexivity. Qed.

(** Every record of [l] is still in [l'] at the same position, with the
    same name, and a valid record is still valid. *)
Definition keeps (l l' : list language_t) : Prop :=
  forall i x, l !! i = Some x ->
  exists x', l' !! i = Some x' /\ Language.name x' = Language.name x /\
             (language_is_valid x = true -> language_is_valid x' = true).

Lemma keeps_refl (l : list language_t) : keeps l l.
Proof. intros i x H. exists x. auto. Qed.

Lemma keeps_trans (l1 l2 l3 : list language_t) :
  keeps l1 l2 -> keeps l2 l3 -> keeps l1 l3.
Proof.
  intros H12 H23 i x H. destruct (H12 i x H) as [y [Hy [Ny Vy]]].
  destruct (H23 i y Hy) as [z [Hz [Nz Vz]]].
  exists z. split; [exact Hz | split; [congruence | auto]].
Qed.

Lemma keeps_add (n : string) (l : list language_t) :
  keeps l (snd (language_add n l)).
Proof.
  unfold language_add. destruct (language_find n l); [apply keeps_refl |].
  intros i x H. exists x. cbn. split; [| auto].
  now apply lookup_app_l_Some.
Qed.

Lemma keeps_set_valid (i : nat) (l : list language_t) : keeps l (set_valid i l).
Proof.
  intros j x H. unfold set_valid. rewrite list_lookup_alter, H.
  case_decide as Hij.
  - subst j. rewrite H. eexists. split; [reflexivity |]. cbn.
    split; [reflexivity | intros _; apply language_is_valid_lor].
  - exists x. auto.
Qed.

Lemma keeps_scan (ents : list string) (l : list language_t) :
  keeps l (scan_entries ents l).
Proof.
  revert l. induction ents as [|d ents IH]; intros l; cbn; [apply keeps_refl |].
  destruct (scan_accepts d); [| apply IH].
  destruct (language_add d l) as [i l1] eqn:E.
  apply (keeps_trans _ l1); [pose proof (keeps_add d l) as K; now rewrite E in K |].
  apply (keeps_trans _ (set_valid i l1)); [apply keeps_set_valid | apply IH].
Qed.

Lemma keeps_init (dir : option (list string)) (l : list language_t) :
  keeps l (language_init dir l).
Proof.
  unfold language_init. destruct (language_add "en" l) as [i l1] eqn:E.
  apply (keeps_trans _ l1); [pose proof (keeps_add "en" l) as K; now rewrite E in K |].
  apply (keeps_trans _ (set_valid i l1)); [apply keeps_set_valid |].
  destruct dir; [apply keeps_scan | apply keeps_refl].
Qed.

(** A record at a position of [language_add]'s result is the old record
    there, or the fresh record with no flags. *)
Lemma language_add_lookup (n : string) (l : list language_t) (i : nat)
    (x' : language_t) :
  snd (language_add n l) !! i = Some x' ->
  l !! i = Some x' \/ (l !! i = None /\ x' = Language.mk n 0).
Proof.
  unfold language_add. destruct (language_find n l); cbn; [now left |].
  intros H. apply lookup_app_Some in H as [H | [Hlen H]]; [now left |].
  right. split; [now apply lookup_ge_None |].
  destruct (i - List.length l) as [|k]; simpl in H; [congruence |].
  rewrite lookup_nil in H. discriminate.
Qed.

(** C4: [language_add] is idempotent: a second call returns the record of
    the first and leaves the registry as it is, and the name then occurs
    exactly once in the registry. *)
Theorem language_add_idempotent (st : state) (n : string) :
  reachable st ->
  fst (language_add n (snd (language_add n (language_list st))))
    = fst (language_add n (language_list st)) /\
  snd (language_add n (snd (language_add n (language_list st))))
    = snd (language_add n (language_list st)) /\
  count_occ string_dec
    (map Language.name (snd (language_add n (language_list st)))) n = 1.
Proof.
  intros Hr. rewrite language_add_idem.
  split; [reflexivity | split; [reflexivity |]].
  exact (proj2 (language_add_nodup _ _ (reachable_nodup _ Hr))).
Qed.

Lemma language_add_idempotent_witness :
  reachable (exec (LanguageAdd "fr") initial_state) /\
  snd (language_add "fr"
         (snd (language_add "fr" (language_list
                                    (exec (LanguageAdd "fr") initial_state)))))
  = [Language.mk "fr" 0].
Proof.
  assert (Hr : reachable (exec (LanguageAdd "fr") initial_state))
    by (apply reachable_exec, reachable_initial).
  split; [exact Hr |].
  destruct (language_add_idempotent _ "fr" Hr) as [_ [E _]].
  rewrite E. reflexivity.
Defined.

(** C5: run on the empty registry with the catalog directory missing,
    [language_init] leaves exactly the builtin "en", valid, and
    [language_names] is "en". *)
Theorem language_init_no_dir (st : state) :
  language_list st = [] ->
  language_list (exec (LanguageInit None) st) = [Language.mk "en" 1] /\
  language_is_valid (Language.mk "en" 1) = true /\
  language_names (language_list (exec (LanguageInit None) st)) = "en".
Proof. intros H. cbn. rewrite H. split; [| split]; reflexivity. Qed.

Lemma language_init_no_dir_witness :
  language_list initial_state = [] /\
  language_names (language_list (exec (LanguageInit None) initial_state)) = "en".
Proof.
  split; [reflexivity |].
  apply (language_init_no_dir initial_state). reflexivity.
Defined.

(** C6: records start invalid when [language_add] creates them; no
    operation removes, renames or invalidates a record; and a record only
    becomes valid (or appears valid) during [language_init]. *)
Theorem language_state_machine (o : op) (st : state) :
  (forall n l, language_find n l = None ->
   snd (language_add n l) = app l [Language.mk n 0] /\
   language_is_valid (Language.mk n 0) = false) /\
  keeps (language_list st) (language_list (exec o st)) /\
  (forall i x', language_list (exec o st) !! i = Some x' ->
   language_is_valid x' = true ->
   (forall x, language_list st !! i = Some x -> language_is_valid x = false) ->
   is_init o = true).
Proof.
  split; [| split].
  - intros n l H. unfold language_add. now rewrite H.
  - destruct o; cbn; try apply keeps_refl.
    + apply keeps_init.
    + apply keeps_add.
  - intros i x' H Hv Hold.
    destruct o; cbn in H; try (rewrite (Hold x' H) in Hv; discriminate).
    + reflexivity.
    + apply language_add_lookup in H as [H | [_ ->]].
      * rewrite (Hold x' H) in Hv. discriminate.
      * discriminate Hv.
Qed.

Lemma language_state_machine_witness :
  language_find "fr" [] = None /\
  snd (language_add "fr" []) = [Language.mk "fr" 0].
Proof.
  split; [reflexivity |].
  destruct (language_state_machine (LanguageAdd "fr") initial_state) as [H _].
  exact (proj1 (H "fr" [] eq_refl)).
Defined.

(** ** Further properties of the translation tables *)

(** Creating a fresh internal translation and destroying it again gives
    back the state as it was. *)
Theorem itranslation_create_destroy_roundtrip (st : state) (k v : string) :
  itranslation_tree st !! k = None ->
  itranslation_destroy k (itranslation_create k v st) = st.
Proof.
  intros H. destruct st as [it lt ll].
  unfold itranslation_create, itranslation_destroy, mowgli_patricia_add,
    mowgli_patricia_delete; cbn in *.
  rewrite H, delete_insert_id by exact H. reflexivity.
Qed.

Lemma itranslation_create_destroy_roundtrip_witness :
  itranslation_tree initial_state !! "a" = None /\
  itranslation_destroy "a" (itranslation_create "a" "b" initial_state)
  = initial_state.
Proof.
  split; [reflexivity |].
  apply itranslation_create_destroy_roundtrip. reflexivity.
Defined.

(** Creating a fresh display translation and destroying its stored
    (truncated, rewritten) key gives back the state as it was. *)
Theorem translation_create_destroy_roundtrip (st : state) (k v : string) :
  translation_tree st !! translation_key k = None ->
  translation_destroy (translation_key k) (translation_create k v st) = st.
Proof.
  intros H. destruct st as [it lt ll].
  unfold translation_create, translation_destroy, mowgli_patricia_add,
    mowgli_patricia_delete; cbn in *.
  fold (translation_key k). rewrite H, delete_insert_id by exact H.
  reflexivity.
Qed.

Lemma translation_create_destroy_roundtrip_witness :
  translation_tree initial_state !! translation_key "a\2b" = None /\
  translation_destroy (translation_key "a\2b")
    (translation_create "a\2b" "c" initial_state) = initial_state.
Proof.
  split; [reflexivity |].
  apply translation_create_destroy_roundtrip. reflexivity.
Defined.

(** A create whose key is already present changes nothing: the first
    translation stored under a key stays. *)
Theorem create_duplicate_noop (st : state) (k v : string) :
  (is_Some (itranslation_tree st !! k) -> itranslation_create k v st = st) /\
  (is_Some (translation_tree st !! translation_key k) ->
   translation_create k v st = st).
Proof.
  destruct st as [it lt ll]. split; intros [t H];
    unfold itranslation_create, translation_create, mowgli_patricia_add;
    cbn in *; [| fold (translation_key k)]; now rewrite H.
Qed.

Lemma create_duplicate_noop_witness :
  is_Some (itranslation_tree (itranslation_create "a" "b" initial_state) !! "a") /\
  itranslation_create "a" "c" (itranslation_create "a" "b" initial_state)
  = itranslation_create "a" "b" initial_state.
Proof.
  assert (H : is_Some (itranslation_tree
                         (itranslation_create "a" "b" initial_state) !! "a"))
    by (eexists; reflexivity).
  split; [exact H |].
  exact (proj1 (create_duplicate_noop _ "a" "c") H).
Defined.

(** A string without a backslash-2 sequence is left alone by the
    rewrite. *)
Lemma replace_bs2_id (s : string) : has_bs2 s = false -> replace_bs2 s = s.
Proof.
  induction s as [s IH] using string_len_ind.
  destruct s as [|c r]; [reflexivity |]. intros H.
  cbn [has_bs2] in H. apply orb_false_iff in H as [H1 H2].
  cbn [replace_bs2]. destruct (Ascii.eqb c "\"%char) eqn:Ec.
  - destruct r as [|d r']; [reflexivity |].
    cbn in H1. rewrite H1.
    now rewrite (IH (String d r') ltac:(cbn; lia) H2).
  - now rewrite (IH r ltac:(cbn; lia) H2).
Qed.

(** The display-table key of a stored key is that key itself: creating a
    translation again from a stored key addresses the same entry. *)
Theorem translation_key_idempotent (k : string) :
  translation_key (translation_key k) = translation_key k.
Proof.
  unfold translation_key at 1, strlcpy.
  rewrite substring_0_full by apply translation_key_length.
  apply replace_bs2_id, replace_bs2_complete.
Qed.

(** What every entry of the display table looks like. *)
Definition display_entry_ok (k : string) (t : translation_t) : Prop :=
  Translation.name t = k /\
  has_bs2 k = false /\ has_bs2 (replacement t) = false /\
  String.length k <= BUFSIZE - 1 /\
  String.length (replacement t) <= BUFSIZE - 1.

(** In every reachable state, each internal entry is stored under its own
    name, and each display entry is stored under its own name, with key
    and replacement shorter than the buffer and free of backslash-2
    sequences. *)
Theorem reachable_tables_ok (st : state) :
  reachable st ->
  (forall k t, itranslation_tree st !! k = Some t -> Translation.name t = k) /\
  (forall k t, translation_tree st !! k = Some t -> display_entry_ok k t).
Proof.
  induction 1 as [|o st _ [IHi IHl]].
  - split; intros k t H; discriminate H.
  - destruct o as [s tr | s | s tr | s | dir | n]; cbn [exec];
      try (split; assumption).
    + split; [| exact IHl]. intros k t H. cbn in H.
      unfold mowgli_patricia_add in H.
      destruct (itranslation_tree st !! s) eqn:E; [exact (IHi _ _ H) |].
      rewrite lookup_insert in H. case_decide as Hk.
      * injection H as <-. cbn. congruence.
      * exact (IHi _ _ H).
    + split; [| exact IHl]. intros k t H. cbn in H.
      rewrite lookup_delete in H. case_decide; [discriminate | exact (IHi _ _ H)].
    + split; [exact IHi |]. intros k t H.
      rewrite translation_create_lookup in H. case_decide as Hk.
      * destruct (translation_tree st !! k) eqn:E; [injection H as ->; exact (IHl _ _ E) |].
        injection H as <-. subst k. repeat split; cbn.
        -- apply replace_bs2_complete.
        -- apply replace_bs2_complete.
        -- apply translation_key_length.
        -- apply translation_key_length.
      * exact (IHl _ _ H).
    + split; [exact IHi |]. intros k t H. cbn in H.
      rewrite lookup_delete in H. case_decide; [discriminate | exact (IHl _ _ H)].
Qed.

Lemma reachable_tables_ok_witness :
  reachable (exec (TranslationCreate "a\2b" "c") initial_state) /\
  (forall k t, translation_tree (exec (TranslationCreate "a\2b" "c") initial_state)
                 !! k = Some t -> display_entry_ok k t).
Proof.
  assert (Hr : reachable (exec (TranslationCreate "a\2b" "c") initial_state))
    by (apply reachable_exec, reachable_initial).
  split; [exact Hr | exact (proj2 (reachable_tables_ok _ Hr))].
Defined.

(** ** Further properties of the language registry *)

Lemma language_find_from_shift (n : string) (l : list language_t) (k : nat) :
  language_find_from n l (S k) = S <$> language_find_from n l k.
Proof.
  revert k. induction l as [|x l IH]; intros k; cbn; [reflexivity |].
  destruct (String.eqb (Language.name x) n); [reflexivity | apply IH].
Qed.

Lemma language_find_cons (n : string) (x : language_t) (l : list language_t) :
  language_find n (x :: l) =
  if String.eqb (Language.name x) n then Some 0 else S <$> language_find n l.
Proof. unfold language_find. cbn. now rewrite language_find_from_shift. Qed.

(** [language_find] returns the position of the first record with the
    name, and fails exactly when no record has it. *)
Theorem language_find_first (n : string) (l : list language_t) :
  (forall i, language_find n l = Some i <->
     exists x, l !! i = Some x /\ Language.name x = n /\
       forall j y, j < i -> l !! j = Some y -> Language.name y <> n) /\
  (language_find n l = None <-> ~ In n (map Language.name l)).
Proof.
  split.
  - induction l as [|x l IH]; intros i.
    + split; [discriminate | intros [x [H _]]; discriminate H].
    + rewrite language_find_cons.
      destruct (String.eqb (Language.name x) n) eqn:E.
      * apply String.eqb_eq in E. split.
        -- intros [= <-]. exists x. split; [reflexivity | split; [exact E | lia]].
        -- intros [y [Hy [Ny Hfirst]]]. destruct i as [|i]; [reflexivity |].
           exfalso. apply (Hfirst 0 x ltac:(lia) eq_refl E).
      * apply String.eqb_neq in E. split.
        -- destruct (language_find n l) as [i'|] eqn:F; cbn; [| discriminate].
           intros [= <-]. destruct (proj1 (IH i') eq_refl) as [y [Hy [Ny Hf]]].
           exists y. split; [exact Hy | split; [exact Ny |]].
           intros [|j] z Hj Hz; [cbn in Hz; congruence |].
           apply (Hf j z ltac:(lia) Hz).
        -- intros [y [Hy [Ny Hf]]]. destruct i as [|i]; [cbn in Hy; congruence |].
           assert (F : language_find n l = Some i).
           { apply IH. exists y. split; [exact Hy | split; [exact Ny |]].
             intros j z Hj Hz. apply (Hf (S j) z ltac:(lia) Hz). }
           rewrite F. reflexivity.
  - split; [apply language_find_from_None_notin |].
    intros Hn. destruct (language_find n l) eqn:F; [| reflexivity].
    exfalso. exact (Hn (language_find_from_Some_in _ _ _ _ F)).
Qed.

Lemma language_find_first_witness :
  exists x, [Language.mk "en" 1; Language.mk "fr" 0] !! 1 = Some x /\
    Language.name x = "fr" /\
    forall j y, j < 1 -> [Language.mk "en" 1; Language.mk "fr" 0] !! j = Some y ->
    Language.name y <> "fr".
Proof. apply (proj1 (proj1 (language_find_first "fr" _) 1)). reflexivity. Defined.

Lemma language_find_app_Some (n : string) (l r : list language_t) (k i : nat) :
  language_find_from n l k = Some i -> language_find_from n (app l r) k = Some i.
Proof.
  revert k. induction l as [|x l IH]; intros k H; cbn in *; [discriminate |].
  destruct (String.eqb (Language.name x) n); [exact H | apply IH, H].
Qed.

(** [language_add n] returns a position holding a record named [n], and
    at most appends one record to the registry. *)
Theorem language_add_result (n : string) (l : list language_t) :
  (exists x, snd (language_add n l) !! fst (language_add n l) = Some x /\
             language_get_name x = n) /\
  (exists suffix, snd (language_add n l) = app l suffix /\
                  List.length suffix <= 1).
Proof.
  pose proof (language_add_find n l) as F.
  split.
  - destruct (proj1 (proj1 (language_find_first n _) _) F) as [x [Hx [Nx _]]].
    exists x. split; [exact Hx | exact Nx].
  - unfold language_add. destruct (language_find n l).
    + exists []. cbn. rewrite app_nil_r. split; [reflexivity | lia].
    + exists [Language.mk n 0]. cbn. split; [reflexivity | lia].
Qed.

(** Adding one name does not change where another name is found. *)
Theorem language_add_find_other (n m : string) (l : list language_t) :
  n <> m -> language_find n (snd (language_add m l)) = language_find n l.
Proof.
  intros Hnm. unfold language_add. destruct (language_find m l); [reflexivity |].
  cbn. unfold language_find. destruct (language_find_from n l 0) eqn:F.
  - now apply language_find_app_Some.
  - rewrite (language_find_from_snoc _ _ _ _ F). cbn.
    destruct (String.eqb m n) eqn:E; [apply String.eqb_eq in E; congruence |].
    reflexivity.
Qed.

Lemma language_add_find_other_witness :
  "de" <> "fr" /\
  language_find "de" (snd (language_add "fr" [Language.mk "de" 1]))
  = language_find "de" [Language.mk "de" 1].
Proof.
  split; [discriminate |].
  apply language_add_find_other. discriminate.
Defined.

Lemma add_set_valid_registers (d : string) (l : list language_t) :
  exists i y, set_valid (fst (language_add d l)) (snd (language_add d l)) !! i = Some y
              /\ Language.name y = d /\ language_is_valid y = true.
Proof.
  destruct (language_add_result d l) as [[x [Hx Nx]] _].
  exists (fst (language_add d l)).
  unfold set_valid. rewrite list_lookup_alter_eq, Hx. eexists.
  split; [reflexivity |]. split; [exact Nx | apply language_is_valid_lor].
Qed.

Lemma scan_entries_registers (ents : list string) (l : list language_t) (n : string) :
  In n ents -> scan_accepts n = true ->
  exists i y, scan_entries ents l !! i = Some y /\ Language.name y = n /\
              language_is_valid y = true.
Proof.
  revert l. induction ents as [|d ents IH]; intros l Hin Ha; [destruct Hin |].
  cbn. destruct Hin as [-> | Hin].
  - rewrite Ha. destruct (language_add n l) as [i l1] eqn:E.
    destruct (add_set_valid_registers n l) as [j [y [Hy [Ny Vy]]]].
    rewrite E in Hy. cbn in Hy.
    destruct (keeps_scan ents (set_valid i l1) j y Hy) as [z [Hz [Nz Vz]]].
    exists j, z. split; [exact Hz | split; [congruence | auto]].
  - destruct (scan_accepts d); [| now apply IH].
    destruct (language_add d l). now apply IH.
Qed.

(** After [language_init], "en" and every catalog entry that passes the
    filter are registered and valid. *)
Theorem language_init_registers (dir : option (list string)) (l : list language_t)
    (n : string) :
  n = "en" \/ (exists ents, dir = Some ents /\ In n ents /\ scan_accepts n = true) ->
  exists i y, language_init dir l !! i = Some y /\ language_get_name y = n /\
              language_is_valid y = true.
Proof.
  intros Hn. unfold language_init.
  destruct (language_add "en" l) as [i l1] eqn:E.
  destruct Hn as [-> | [ents [-> [Hin Ha]]]].
  - destruct (add_set_valid_registers "en" l) as [j [y [Hy [Ny Vy]]]].
    rewrite E in Hy. cbn in Hy.
    destruct dir as [ents|]; [| now exists j, y].
    destruct (keeps_scan ents (set_valid i l1) j y Hy) as [z [Hz [Nz Vz]]].
    exists j, z. split; [exact Hz | split; [unfold language_get_name; congruence | auto]].
  - now apply scan_entries_registers.
Qed.

Lemma language_init_registers_witness :
  (exists ents, Some ["fr"] = Some ents /\ In "fr" ents /\ scan_accepts "fr" = true) /\
  (exists i y, language_init (Some ["fr"]) [] !! i = Some y /\
               language_get_name y = "fr" /\ language_is_valid y = true).
Proof.
  assert (H : exists ents, Some ["fr"] = Some ents /\ In "fr" ents /\
                           scan_accepts "fr" = true)
    by (exists ["fr"]; split; [reflexivity | split; [left; reflexivity | reflexivity]]).
  split; [exact H |]. apply language_init_registers. right. exact H.
Defined.

Lemma scan_entries_filter (ents : list string) (l : list language_t) :
  scan_entries ents l = scan_entries (List.filter scan_accepts ents) l.
Proof.
  revert l. induction ents as [|d ents IH]; intros l; cbn; [reflexivity |].
  destruct (scan_accepts d) eqn:Ha; cbn; rewrite ?Ha; [| apply IH].
  destruct (language_add d l). apply IH.
Qed.

(** The directory scan ignores the entries its filter rejects (names
    starting with '.', "all_languages", "locale.alias"): [language_init]
    behaves as if they were not in the directory. *)
Theorem language_init_ignores_rejected (ents : list string) (l : list language_t) :
  language_init (Some ents) l = language_init (Some (List.filter scan_accepts ents)) l.
Proof.
  unfold language_init. destruct (language_add "en" l). apply scan_entries_filter.
Qed.

Lemma language_add_names (m n : string) (l : list language_t) :
  In n (map Language.name (snd (language_add m l))) ->
  In n (map Language.name l) \/ n = m.
Proof.
  unfold language_add. destruct (language_find m l); cbn; [now left |].
  rewrite map_app, in_app_iff. cbn. intros [H | [H | []]]; [now left | now right].
Qed.

Lemma scan_entries_names (ents : list string) (l : list language_t) (n : string) :
  In n (map Language.name (scan_entries ents l)) ->
  In n (map Language.name l) \/ (In n ents /\ scan_accepts n = true).
Proof.
  revert l. induction ents as [|d ents IH]; intros l H; cbn in H; [now left |].
  destruct (scan_accepts d) eqn:Ha.
  - destruct (language_add d l) as [i l1] eqn:E.
    destruct (IH _ H) as [H1 | [Hin Hn]].
    + rewrite set_valid_names in H1.
      assert (H2 : In n (map Language.name (snd (language_add d l)))) by now rewrite E.
      destruct (language_add_names _ _ _ H2) as [H3 | ->]; [now left |].
      right. split; [now left | exact Ha].
    + right. split; [now right | exact Hn].
  - destruct (IH _ H) as [H1 | [Hin Hn]]; [now left | right; split; [now right | exact Hn]].
Qed.

(** [language_init] adds no other names than "en" and the catalog entries
    its filter accepts. *)
Theorem language_init_names (dir : option (list string)) (l : list language_t)
    (n : string) :
  In n (map Language.name (language_init dir l)) ->
  In n (map Language.name l) \/ n = "en" \/
  (exists ents, dir = Some ents /\ In n ents /\ scan_accepts n = true).
Proof.
  unfold language_init. destruct (language_add "en" l) as [i l1] eqn:E. intros H.
  assert (Hen : In n (map Language.name l1) -> In n (map Language.name l) \/ n = "en").
  { intros H1. apply language_add_names. now rewrite E. }
  destruct dir as [ents|].
  - destruct (scan_entries_names _ _ _ H) as [H1 | H1].
    + rewrite set_valid_names in H1. destruct (Hen H1) as [H2 | H2]; [now left | now right; left].
    + right; right. now exists ents.
  - rewrite set_valid_names in H. destruct (Hen H) as [H2 | H2]; [now left | now right; left].
Qed.

Lemma language_init_names_witness :
  In "fr" (map Language.name (language_init (Some ["."; "fr"]) [])) /\
  (In "fr" (map Language.name []) \/ "fr" = "en" \/
   (exists ents, Some ["."; "fr"] = Some ents /\ In "fr" ents /\
                 scan_accepts "fr" = true)).
Proof.
  assert (H : In "fr" (map Language.name (language_init (Some ["."; "fr"]) [])))
    by (cbn; auto).
  split; [exact H | exact (language_init_names _ _ _ H)].
Defined.

Lemma string_app_cons (c : ascii) (s t : string) :
  String c s ++ t = String c (s ++ t).
Proof. reflexivity. Qed.

Lemma string_length_app (s1 s2 : string) :
  String.length (s1 ++ s2) = String.length s1 + String.length s2.
Proof.
  induction s1 as [|c s1 IH]; [reflexivity |].
  rewrite string_app_cons. cbn [String.length]. now rewrite IH.
Qed.

Lemma string_app_nil_r (s : string) : s ++ "" = s.
Proof.
  induction s as [|c s IH]; [reflexivity |]. rewrite string_app_cons. now rewrite IH.
Qed.

Lemma string_app_assoc (s1 s2 s3 : string) : (s1 ++ s2) ++ s3 = s1 ++ s2 ++ s3.
Proof.
  induction s1 as [|c s1 IH]; [reflexivity |].
  rewrite !string_app_cons. now rewrite IH.
Qed.

Lemma strlcat_length (dst src : string) (size : nat) :
  String.length dst < size ->
  String.length (strlcat dst src size) <= size - 1.
Proof.
  intros H. unfold strlcat. rewrite string_length_app, substring_0_length. lia.
Qed.

Lemma strlcat_fits (dst src : string) (size : nat) :
  String.length dst + String.length src <= size - 1 ->
  strlcat dst src size = dst ++ src.
Proof. intros H. unfold strlcat. rewrite substring_0_full by lia. reflexivity. Qed.

Lemma language_names_loop_bound (l : list language_t) (acc : string) :
  String.length acc <= 511 -> String.length (language_names_loop l acc) <= 511.
Proof.
  revert acc. induction l as [|x l IH]; intros acc H; cbn; [exact H |].
  apply IH. destruct (language_is_valid x); [| exact H].
  apply (Nat.le_trans _ (512 - 1)); [| lia]. apply strlcat_length.
  destruct (negb (String.eqb acc "")); [| lia].
  pose proof (strlcat_length acc " " 512). lia.
Qed.

(** [language_names] never overruns its 512-byte buffer: the result has
    at most 511 bytes, however many languages are valid. *)
Theorem language_names_bounded (l : list language_t) :
  String.length (language_names l) <= 511.
Proof. apply language_names_loop_bound. cbn. lia. Qed.

(** The names of the valid records, in registry order. *)
Definition valid_names (l : list language_t) : list string :=
  map Language.name (List.filter language_is_valid l).

(** Each name preceded by a space. *)
Fixpoint sep_names (ns : list string) : string :=
  match ns with
  | [] => ""
  | n :: ns' => " " ++ n ++ sep_names ns'
  end.

Lemma concat_space_cons (n : string) (ns : list string) :
  String.concat " " (n :: ns) = n ++ sep_names ns.
Proof.
  revert n. induction ns as [|m ns IH]; intros n.
  - cbn [String.concat sep_names]. now rewrite string_app_nil_r.
  - change (String.concat " " (n :: m :: ns))
      with (n ++ " " ++ String.concat " " (m :: ns)).
    rewrite IH. reflexivity.
Qed.

Lemma language_names_loop_nonempty (l : list language_t) (acc : string) :
  acc <> "" ->
  String.length acc + String.length (sep_names (valid_names l)) <= 511 ->
  language_names_loop l acc = acc ++ sep_names (valid_names l).
Proof.
  revert acc. induction l as [|x l IH]; intros acc Hne Hlen; cbn.
  - now rewrite string_app_nil_r.
  - unfold valid_names in *. cbn in Hlen |- *.
    destruct (language_is_valid x); cbn in Hlen |- *; [| now apply IH].
    rewrite string_length_app in Hlen. cbn in Hlen.
    rewrite string_length_app in Hlen.
    assert (E : negb (String.eqb acc "") = true)
      by (apply negb_true_iff, String.eqb_neq; exact Hne).
    rewrite E, (strlcat_fits acc " ") by (cbn; lia).
    rewrite strlcat_fits by (rewrite string_length_app; cbn; lia).
    rewrite IH.
    + rewrite !string_app_assoc. reflexivity.
    + destruct acc; [congruence | discriminate].
    + rewrite !string_length_app. cbn. lia.
Qed.

(** When every valid record has a non-empty name and the joined names fit
    the buffer, [language_names] is exactly the valid names, in registry
    order, separated by single spaces. *)
Theorem language_names_join (l : list language_t) :
  (forall x, In x l -> language_is_valid x = true -> Language.name x <> "") ->
  String.length (String.concat " " (valid_names l)) <= 511 ->
  language_names l = String.concat " " (valid_names l).
Proof.
  unfold language_names. induction l as [|x l IH]; intros Hne Hlen; [reflexivity |].
  unfold valid_names in *.
  cbn [language_names_loop List.filter] in Hlen |- *.
  destruct (language_is_valid x) eqn:V;
    cbn [map language_names_loop negb String.eqb] in Hlen |- *.
  - rewrite concat_space_cons in Hlen |- *. rewrite string_length_app in Hlen.
    rewrite strlcat_fits by (cbn [String.length]; lia).
    apply language_names_loop_nonempty; [| exact Hlen].
    apply Hne; [now left | exact V].
  - apply IH; [| exact Hlen]. intros y Hy. apply Hne. now right.
Qed.

Lemma language_names_join_witness :
  (forall x, In x [Language.mk "en" 1; Language.mk "de" 0; Language.mk "fr" 1] ->
   language_is_valid x = true -> Language.name x <> "") /\
  language_names [Language.mk "en" 1; Language.mk "de" 0; Language.mk "fr" 1]
  = "en fr".
Proof.
  assert (H : forall x, In x [Language.mk "en" 1; Language.mk "de" 0;
                              Language.mk "fr" 1] ->
              language_is_valid x = true -> Language.name x <> "").
  { intros x [<- | [<- | [<- | []]]] _; discriminate. }
  split; [exact H |].
  rewrite (language_names_join _ H) by (apply Nat.leb_le; reflexivity).
  reflexivity.
Defined.
